(** * dev-utilities: composed-tree helpers of [src/dev-utilities.js]

    A shallow embedding of the DOM helpers of the library and the
    properties its specification states about them.

    The library never builds nodes: it reads properties of the objects
    the browser hands to it.  A DOM is therefore modelled as a heap of
    node objects, addressed by their identity, each object carrying the
    properties the code reads ([parentNode], [childNodes], [shadowRoot],
    [assignedSlot], [host], [activeElement], ...).  Loops and
    recursive generators take a [fuel] argument: [None] stands for a run
    that has not finished within that many iterations (calls). *)

From Stdlib Require Import ZArith QArith Lia Lqa List Bool String Ascii.
From stdpp Require Import base option gmap strings.
Import ListNotations.

Set Implicit Arguments.

(** ** JavaScript values the code relies on *)

(** Object-or-null values ([null] and [undefined] are both [None]). *)
Definition truthy {A} (v : option A) : bool :=
  match v with Some _ => true | None => false end.

(** [a || b] on object-or-null values. *)
Definition js_or {A} (a b : option A) : option A :=
  match a with Some _ => a | None => b end.

(** [a ?? b] where [b] is an object. *)
Definition nullish {A} (a : option A) (b : A) : option A :=
  match a with Some _ => a | None => Some b end.

(** ** The DOM heap *)

Definition Node := nat.

(** The interfaces the code discriminates with [instanceof]. *)
Inductive NodeClass :=
| Document
| HTMLElement        (* an HTML element that is not a slot *)
| HTMLSlotElement    (* <slot>, a subclass of HTMLElement *)
| OtherElement       (* SVG, MathML: Element but not HTMLElement *)
| ShadowRoot
| Text
| OtherNode.         (* comments, fragments, ... *)

Record NodeObj := {
  class : NodeClass;
  nodeType : Z;
  parentNode : option Node;
  childNodes : list Node;
  children : list Node;            (* element children *)
  shadowRoot : option Node;        (* open shadow root of an element *)
  host : option Node;              (* of a ShadowRoot *)
  assignedSlot : option Node;
  assignedNodes : list Node;       (* slot.assignedNodes({flatten: true}) *)
  activeElement : option Node      (* of a Document or ShadowRoot *)
}.

(** The global environment: the node objects, the [document] and
    [document.body] (typed [HTMLElement] by the DOM typings the build
    checks the sources against). *)
Record DOM := {
  heap :> Node -> NodeObj;
  document : Node;
  body : Node
}.

Definition instanceof_HTMLElement (d : DOM) (n : Node) : bool :=
  match class (d n) with
  | HTMLElement | HTMLSlotElement => true
  | _ => false
  end.

Definition instanceof_HTMLSlotElement (d : DOM) (n : Node) : bool :=
  match class (d n) with HTMLSlotElement => true | _ => false end.

Definition instanceof_ShadowRoot (d : DOM) (n : Node) : bool :=
  match class (d n) with ShadowRoot => true | _ => false end.

(** ** composedAncestors *)

(** The [next] of one iteration of the loop of [composedAncestors]. *)
Definition composedParent (d : DOM) (current : Node) : option Node :=
  if instanceof_HTMLElement d current && truthy (assignedSlot (d current))
  then assignedSlot (d current)
  else if instanceof_ShadowRoot d current
       then host (d current)
       else parentNode (d current).

(** [for (let current = node; current; ) { ...; current = next }]:
    the list of the nodes yielded when the generator is run to its end. *)
Fixpoint composedAncestors_loop (fuel : nat) (d : DOM) (current : option Node)
  : option (list Node) :=
  match current with
  | None => Some []
  | Some c =>
    match fuel with
    | O => None
    | S fuel' =>
      let next := composedParent d c in
      match next with
      | Some nx =>
        match composedAncestors_loop fuel' d next with
        | Some rest => Some (nx :: rest)
        | None => None
        end
      | None => composedAncestors_loop fuel' d next
      end
    end
  end.

Definition composedAncestors (fuel : nat) (d : DOM) (node : Node)
  : option (list Node) :=
  composedAncestors_loop fuel d (Some node).

(** ** deepContains *)

(** [current.assignedSlot || current.parentNode || current.host] *)
Definition deepParent (d : DOM) (current : Node) : option Node :=
  js_or (js_or (assignedSlot (d current)) (parentNode (d current)))
        (host (d current)).

Definition same_node (parent : option Node) (container : Node) : bool :=
  match parent with
  | Some p => Nat.eqb p container
  | None => false
  end.

Fixpoint deepContains_loop (fuel : nat) (d : DOM) (container : Node)
  (current : option Node) : option bool :=
  match current with
  | None => Some false
  | Some c =>
    match fuel with
    | O => None
    | S fuel' =>
      let parent := deepParent d c in
      if same_node parent container then Some true
      else deepContains_loop fuel' d container parent
    end
  end.

Definition deepContains (fuel : nat) (d : DOM) (container target : Node)
  : option bool :=
  deepContains_loop fuel d container (Some target).

(** ** Well-formed trees *)

(** A tree is well formed when walking up terminates: every node has a
    depth, and the composed parent of a node is strictly less deep. *)
Definition depth_ok (d : DOM) (depth : Node -> nat) : Prop :=
  forall n p, composedParent d n = Some p -> depth p < depth n.



(** ** walkComposedTree *)

(** The [children] the generator iterates over. *)
Definition composedChildren (d : DOM) (node : Node) : list Node :=
  match (if instanceof_HTMLElement d node then shadowRoot (d node) else None) with
  | Some sr => children (d sr)
  | None =>
    if instanceof_HTMLSlotElement d node
    then assignedNodes (d node)
    else childNodes (d node)
  end.

(** [(whatToShow && node.nodeType !== whatToShow) || skipNode(node)] *)
Definition stops (d : DOM) (whatToShow : Z) (skipNode : Node -> bool)
  (node : Node) : bool :=
  (negb (whatToShow =? 0)%Z && negb (nodeType (d node) =? whatToShow)%Z)
  || skipNode node.

(** [for (const child of children) yield* ...]: the sequences of the
    children, one after the other; unfinished if one of them is. *)
Fixpoint yield_all (runs : list (option (list Node))) : option (list Node) :=
  match runs with
  | [] => Some []
  | run :: runs' =>
    match run, yield_all runs' with
    | Some l, Some rest => Some (l ++ rest)
    | _, _ => None
    end
  end.

(** The nodes yielded by the generator when it is run to its end;
    [fuel] bounds the depth of the recursion. *)
Fixpoint walkComposedTree (fuel : nat) (d : DOM) (node : Node)
  (whatToShow : Z) (filter skipNode : Node -> bool) : option (list Node) :=
  match fuel with
  | O => None
  | S fuel' =>
    if stops d whatToShow skipNode node then Some []
    else
      match yield_all
              (map (fun child =>
                      walkComposedTree fuel' d child whatToShow filter skipNode)
                   (composedChildren d node)) with
      | Some rest => Some ((if filter node then [node] else []) ++ rest)
      | None => None
      end
  end.

(** [walkComposedTree(node)] with the default arguments. *)
Definition walkComposedTree_default (fuel : nat) (d : DOM) (node : Node)
  : option (list Node) :=
  walkComposedTree fuel d node 0 (fun _ => true) (fun _ => false).



(** [visits d stop root n]: the walk from [root] reaches [n]: no node
    on the way from [root] down to [n], both included, stops the walk. *)
Inductive visits (d : DOM) (stop : Node -> bool) : Node -> Node -> Prop :=
| visits_here n : stop n = false -> visits d stop n n
| visits_below n c m :
    stop n = false -> In c (composedChildren d n) ->
    visits d stop c m -> visits d stop n m.



(** ** getDeepActiveElement *)

(** [root] is an object or [null]; the result is a JavaScript value
    that may be nullish. *)
Fixpoint getDeepActiveElement (fuel : nat) (d : DOM) (root : option Node)
  : option (option Node) :=
  match fuel with
  | O => None
  | S fuel' =>
    let activeEl :=
      match root with Some r => activeElement (d r) | None => None end in
    match activeEl with
    | Some a =>
      match shadowRoot (d a) with
      | Some sr =>
        match getDeepActiveElement fuel' d (Some sr) with
        | Some deeper => Some (nullish deeper a)
        | None => None
        end
      | None => Some (Some a)
      end
    | None => Some (Some (body d))
    end
  end.

(** [getDeepActiveElement()]: [root] defaults to [document]. *)
Definition getDeepActiveElement_default (fuel : nat) (d : DOM)
  : option (option Node) :=
  getDeepActiveElement fuel d (Some (document d)).




(** ** redispatchEventFromEvent *)

Inductive JSValue :=
| JSUndefined
| JSNull
| JSBool (b : bool)
| JSNumber (z : Z)
| JSString (s : string)
| JSObject.

Definition ToBoolean (v : JSValue) : bool :=
  match v with
  | JSUndefined | JSNull => false
  | JSBool b => b
  | JSNumber z => negb (z =? 0)%Z
  | JSString s => negb (String.eqb s "")
  | JSObject => true
  end.

(** An event: the flags kept by the browser (read through accessors of
    the prototype) and the own enumerable properties of the object,
    which are what an object spread copies. *)
Record Event := {
  type : string;
  bubbles : bool;
  cancelable : bool;
  composed : bool;
  ownProps : gmap string JSValue
}.

(** A member of the init dictionary of an event constructor: absent
    or [undefined] is [false]. *)
Definition init_flag (init : gmap string JSValue) (key : string) : bool :=
  match init !! key with
  | Some v => ToBoolean v
  | None => false
  end.

(** [Reflect.construct(ev.constructor, [type, init])] *)
Definition construct (ty : string) (init : gmap string JSValue) : Event :=
  {| type := ty;
     bubbles := init_flag init "bubbles";
     cancelable := init_flag init "cancelable";
     composed := init_flag init "composed";
     ownProps := {[ "isTrusted" := JSBool false ]} |}.

(** [{...ev, ...options}]: the later spread wins. *)
Definition spread (ev : Event) (options : gmap string JSValue)
  : gmap string JSValue :=
  options ∪ ownProps ev.

(** What the listeners reached from an element do with an event
    dispatched on it: [true] when one of them calls [preventDefault]. *)
Definition Listeners := Node -> Event -> bool.

(** [element.dispatchEvent(e)] is [false] exactly when [e] is
    cancelable and a listener called [preventDefault] on it. *)
Definition dispatchEvent (on : Listeners) (element : Node) (e : Event) : bool :=
  negb (cancelable e && on element e).

(** The methods called on the original event. *)
Inductive EventCall := StopPropagation | PreventDefault.

(** The result and the calls made on [ev], in order. *)
Definition redispatchEventFromEvent (d : DOM) (on : Listeners)
  (element : Node) (ev : Event) (options : gmap string JSValue)
  : bool * list EventCall :=
  let stopped :=
    if bubbles ev && (negb (truthy (shadowRoot (d element))) || composed ev)
    then [StopPropagation] else [] in
  let copy := construct (type ev) (spread ev options) in
  let dispatched := dispatchEvent on element copy in
  let prevented := if negb dispatched then [PreventDefault] else [] in
  (dispatched, stopped ++ prevented).

(** ** isClickInsideRect *)



(** ** randomID *)

(** [s.substring(start, end)]: both indices are clamped to the string
    and swapped when [start] is the larger. *)
Definition js_substring (s : string) (start finish : Z) : string :=
  let len := Z.of_nat (String.length s) in
  let finalStart := Z.min (Z.max start 0) len in
  let finalEnd := Z.min (Z.max finish 0) len in
  let from := Z.min finalStart finalEnd in
  let to := Z.max finalStart finalEnd in
  String.substring (Z.to_nat from) (Z.to_nat (to - from)) s.

Definition base36 : string := "0123456789abcdefghijklmnopqrstuvwxyz".

Definition digit36 (k : nat) : ascii :=
  match String.get (k mod 36) base36 with
  | Some c => c
  | None => "0"%char
  end.

(** [Math.random().toString(36)]: the draw is a number in [0, 1),
    given by the digits of its fraction in base 36; [0] prints as "0". *)
Definition toString36 (fraction : list nat) : string :=
  match fraction with
  | [] => "0"
  | _ => "0." ++ string_of_list_ascii (map digit36 fraction)
  end.

Definition randomID (length : Z) (fraction : list nat) : string :=
  js_substring (toString36 fraction) 2 length.

Definition is_base36 (c : ascii) : bool :=
  let n := nat_of_ascii c in
  ((48 <=? n) && (n <=? 57)) || ((97 <=? n) && (n <=? 122)).

(** ** Sample documents *)

Definition object (cls : NodeClass) (ty : Z) (parent : option Node)
  (kids elements : list Node) : NodeObj :=
  {| class := cls; nodeType := ty; parentNode := parent;
     childNodes := kids; children := elements;
     shadowRoot := None; host := None; assignedSlot := None;
     assignedNodes := []; activeElement := None |}.

Definition with_shadowRoot (sr : Node) (o : NodeObj) : NodeObj :=
  {| class := class o; nodeType := nodeType o; parentNode := parentNode o;
     childNodes := childNodes o; children := children o;
     shadowRoot := Some sr; host := host o; assignedSlot := assignedSlot o;
     assignedNodes := assignedNodes o; activeElement := activeElement o |}.

Definition with_host (h : Node) (o : NodeObj) : NodeObj :=
  {| class := class o; nodeType := nodeType o; parentNode := parentNode o;
     childNodes := childNodes o; children := children o;
     shadowRoot := shadowRoot o; host := Some h; assignedSlot := assignedSlot o;
     assignedNodes := assignedNodes o; activeElement := activeElement o |}.

Definition with_assignedSlot (s : Node) (o : NodeObj) : NodeObj :=
  {| class := class o; nodeType := nodeType o; parentNode := parentNode o;
     childNodes := childNodes o; children := children o;
     shadowRoot := shadowRoot o; host := host o; assignedSlot := Some s;
     assignedNodes := assignedNodes o; activeElement := activeElement o |}.

Definition with_assignedNodes (l : list Node) (o : NodeObj) : NodeObj :=
  {| class := class o; nodeType := nodeType o; parentNode := parentNode o;
     childNodes := childNodes o; children := children o;
     shadowRoot := shadowRoot o; host := host o; assignedSlot := assignedSlot o;
     assignedNodes := l; activeElement := activeElement o |}.

Definition with_activeElement (a : option Node) (o : NodeObj) : NodeObj :=
  {| class := class o; nodeType := nodeType o; parentNode := parentNode o;
     childNodes := childNodes o; children := children o;
     shadowRoot := shadowRoot o; host := host o; assignedSlot := assignedSlot o;
     assignedNodes := assignedNodes o; activeElement := a |}.

(** An object that is in no tree. *)
Definition detached : NodeObj := object OtherNode 8 None [] [].

(** <body><x-host>#shadow-root <slot></slot> /#shadow-root LIGHT</x-host></body>
    where LIGHT, the only light child of the host, is assigned to the
    slot; [light] is its class and [lightType] its node type.
    0 document, 1 body, 2 x-host, 3 its shadow root, 4 the slot, 5 LIGHT. *)
Definition slottedPage (light : NodeClass) (lightType : Z) : DOM :=
  {| heap := fun n =>
       match n with
       | 0 => object Document 9 None [1] [1]
       | 1 => object HTMLElement 1 (Some 0) [2] [2]
       | 2 => with_shadowRoot 3
                (object HTMLElement 1 (Some 1) [5]
                   (match light with Text | OtherNode => [] | _ => [5] end))
       | 3 => with_host 2 (object ShadowRoot 11 None [4] [4])
       | 4 => with_assignedNodes [5] (object HTMLSlotElement 1 (Some 3) [] [])
       | 5 => with_assignedSlot 4 (object light lightType (Some 2) [] [])
       | _ => detached
       end;
     document := 0;
     body := 1 |}.

Definition slottedText : DOM := slottedPage Text 3.
Definition slottedSpan : DOM := slottedPage HTMLElement 1.

Definition slottedPage_depth (n : Node) : nat :=
  match n with
  | 0 => 0 | 1 => 1 | 2 => 2 | 3 => 3 | 4 => 4 | 5 => 5 | _ => 0
  end.


(** <body><x-host tabindex=0>#shadow-root <button></button></x-host></body>
    with the host focused; [inner] is the active element of its shadow
    root: [None] when the focus is on the host itself, [Some 4] when it
    is on the button.
    0 document, 1 body, 2 x-host, 3 its shadow root, 4 the button. *)
Definition focusPage (inner : option Node) : DOM :=
  {| heap := fun n =>
       match n with
       | 0 => with_activeElement (Some 2) (object Document 9 None [1] [1])
       | 1 => object HTMLElement 1 (Some 0) [2] [2]
       | 2 => with_shadowRoot 3 (object HTMLElement 1 (Some 1) [] [])
       | 3 => with_activeElement inner
                (with_host 2 (object ShadowRoot 11 None [4] [4]))
       | 4 => object HTMLElement 1 (Some 3) [] []
       | _ => detached
       end;
     document := 0;
     body := 1 |}.


(** A plain page, without shadow tree or slot:
    <body><p>text</p><!-- comment --></body>
    0 document, 1 body, 2 p, 3 the text, 4 the comment. *)
Definition plainPage : DOM :=
  {| heap := fun n =>
       match n with
       | 0 => object Document 9 None [1] [1]
       | 1 => object HTMLElement 1 (Some 0) [2; 4] [2]
       | 2 => object HTMLElement 1 (Some 1) [3] []
       | 3 => object Text 3 (Some 2) [] []
       | 4 => object OtherNode 8 (Some 1) [] []
       | _ => detached
       end;
     document := 0;
     body := 1 |}.


(** A cancelable [close] event, as the browser makes it, and listeners
    that call [preventDefault] on whatever reaches them. *)
Definition cancelableClose : Event :=
  {| type := "close"; bubbles := false; cancelable := true; composed := false;
     ownProps := {[ "isTrusted" := JSBool true ]} |}.

Definition cancelingListeners : Listeners := fun _ _ => true.



(** Case analysis on the identity of a node of a sample document. *)
Ltac node_by_node n tac :=
  do 6 (destruct n as [|n]; [tac|]); tac.

(** ** Chains of parents *)

(** [composed_chain d n l]: [l] is the chain of composed parents of
    [n], nearest first, up to a node that has none. *)
Inductive composed_chain (d : DOM) : Node -> list Node -> Prop :=
| composed_chain_top n :
    composedParent d n = None -> composed_chain d n []
| composed_chain_up n p l :
    composedParent d n = Some p -> composed_chain d p l ->
    composed_chain d n (p :: l).

(** [climbs d n a]: [a] is reached from [n] by one or more steps of
    the loop of [deepContains]. *)
Inductive climbs (d : DOM) : Node -> Node -> Prop :=
| climbs_parent n p : deepParent d n = Some p -> climbs d n p
| climbs_further n p a :
    deepParent d n = Some p -> climbs d p a -> climbs d n a.

(** The loop of [deepContains] terminates: the parent it climbs to is
    strictly less deep. *)
Definition deep_depth_ok (d : DOM) (depth : Node -> nat) : Prop :=
  forall n p, deepParent d n = Some p -> depth p < depth n.

(** ** getFirstAndLastFocusableChildren *)

(** One turn of [for (const currentNode of walker)]: the pair
    (firstFocusableChild, lastFocusableChild). *)
Definition focusable_step (acc : option Node * option Node)
  (currentNode : Node) : option Node * option Node :=
  ((if negb (truthy (fst acc)) then Some currentNode else fst acc),
   Some currentNode).

(** [walker] is the sequence the iterator yields. *)
Definition getFirstAndLastFocusableChildren (walker : list Node)
  : option Node * option Node :=
  fold_left focusable_step walker (None, None).

(** ** redispatchEvent *)

(** [new CustomEvent(eventType)] *)
Definition newCustomEvent (eventType : string) : Event :=
  {| type := eventType; bubbles := false; cancelable := false;
     composed := false;
     ownProps := {[ "isTrusted" := JSBool false ]} |}.

(** [ev] is a string or an event. *)
Definition redispatchEvent (d : DOM) (on : Listeners) (element : Node)
  (ev : string + Event) (options : gmap string JSValue)
  : bool * list EventCall :=
  match ev with
  | inl eventType =>
    redispatchEventFromEvent d on element (newCustomEvent eventType) options
  | inr e => redispatchEventFromEvent d on element e options
  end.

(** ** Selectors, isElementInvisible and isFocusable *)

(** What the code reads of an element besides its place in the tree:
    its local name, its attributes (names in lower case, as HTML
    elements have them), two properties of its computed style, and,
    for a shadow root, [delegatesFocus]. *)
Record ElementObj := {
  localName : string;
  attributes : gmap string string;
  display : string;
  visibility : string;
  delegatesFocus : bool
}.

(** The selectors the code uses: type and attribute selectors and
    [:not(...)]; a compound selector is a list of them, a selector
    list a list of compound selectors separated by commas. *)
Inductive Simple :=
| TypeSel (name : string)               (* name *)
| Attr (name : string)                  (* [name] *)
| AttrEq (name value : string)          (* [name="value"] *)
| AttrStarts (name value : string)      (* [name^="value"] *)
| Not (s : Simple).                     (* :not(s) *)

Definition Compound := list Simple.

Fixpoint matches_simple (o : ElementObj) (s : Simple) : bool :=
  match s with
  | TypeSel name => String.eqb (localName o) name
  | Attr name => truthy (attributes o !! name)
  | AttrEq name value =>
    match attributes o !! name with
    | Some v => String.eqb v value
    | None => false
    end
  | AttrStarts name value =>
    match attributes o !! name with
    | Some v => negb (String.eqb value "") && String.prefix value v
    | None => false
    end
  | Not s' => negb (matches_simple o s')
  end.

Definition matches_list (o : ElementObj) (selectors : list Compound) : bool :=
  existsb (forallb (matches_simple o)) selectors.

(** A result, or the SyntaxError of [matches]. *)
Inductive completion (A : Type) :=
| Normal (a : A)
| SyntaxError.
Arguments Normal {A} a.
Arguments SyntaxError {A}.

(** [element.matches(selectors.join(','))] for an array of compound
    selectors: the empty array joins to the empty string, which is not
    a selector. *)
Definition matches_joined (o : ElementObj) (selectors : list Compound)
  : completion bool :=
  match selectors with
  | [] => SyntaxError
  | _ => Normal (matches_list o selectors)
  end.

(** ['dialog', '[popover]'] *)
Definition default_exceptions : list Compound :=
  [[TypeSel "dialog"]; [Attr "popover"]].

(** '[disabled], [hidden], [inert], [aria-hidden="true"]' *)
Definition hidden_attributes : list Compound :=
  [[Attr "disabled"]; [Attr "hidden"]; [Attr "inert"];
   [AttrEq "aria-hidden" "true"]].

Definition isElementInvisible (d : DOM) (e : Node -> ElementObj)
  (element : option Node) (exceptions : list Compound) : completion bool :=
  match element with
  | None => Normal false
  | Some el =>
    if negb (instanceof_HTMLElement d el) then Normal false
    else
      match matches_joined (e el) exceptions with
      | SyntaxError => SyntaxError
      | Normal true => Normal false
      | Normal false =>
        let isStyleHidden :=
          String.eqb (display (e el)) "none"
          || String.eqb (visibility (e el)) "hidden" in
        let isAttributeHidden := matches_list (e el) hidden_attributes in
        Normal (isStyleHidden || isAttributeHidden)
      end
  end.

(** The selector list [knownFocusableElements]. *)
Definition knownFocusableElements : list Compound :=
  [[TypeSel "a"; Attr "href"];
   [TypeSel "area"; Attr "href"];
   [TypeSel "button"; Not (Attr "disabled")];
   [TypeSel "details"];
   [TypeSel "iframe"];
   [TypeSel "object"];
   [TypeSel "input"; Not (Attr "disabled")];
   [TypeSel "select"; Not (Attr "disabled")];
   [TypeSel "textarea"; Not (Attr "disabled")];
   [AttrEq "contenteditable" "true"];
   [Attr "tabindex"; Not (AttrStarts "tabindex" "-")];
   [TypeSel "audio"; Attr "controls"];
   [TypeSel "video"; Attr "controls"]].

(** [s.includes('-')] *)
Definition includes_hyphen (s : string) : bool :=
  existsb (Ascii.eqb "-"%char) (list_ascii_of_string s).

Definition isFocusable (d : DOM) (e : Node -> ElementObj) (element : Node)
  : bool :=
  if negb (instanceof_HTMLElement d element) then false
  else if matches_list (e element) knownFocusableElements then true
  else
    let isDisabledCustomElement :=
      includes_hyphen (localName (e element))
      && matches_list (e element)
           [[Attr "disabled"]; [AttrEq "aria-disabled" "true"]] in
    if isDisabledCustomElement then false
    else
      match shadowRoot (d element) with
      | Some sr => delegatesFocus (e sr)
      | None => false
      end.

(** ** urlToPlainObject *)

(** [typeof v === 'string'] *)
Definition is_string (v : JSValue) : bool :=
  match v with JSString _ => true | _ => false end.

(** The loop over the enumerable properties of the URL object, in the
    order [for ... in] visits them. *)
Definition copy_strings (props : list (string * JSValue))
  : gmap string JSValue :=
  fold_left
    (fun (plainObject : gmap string JSValue) (kv : string * JSValue) =>
       if is_string (snd kv) then <[fst kv := snd kv]> plainObject
       else plainObject)
    props ∅.

(** [url] is a string or a URL object, given by its enumerable
    properties; [newURL] is the constructor [new URL(string)], which
    throws ([None]) on a string that is not a URL. *)
Definition urlToPlainObject
  (newURL : string -> option (list (string * JSValue)))
  (url : string + list (string * JSValue)) : option (gmap string JSValue) :=
  match (match url with inl s => newURL s | inr o => Some o end) with
  | Some urlObject => Some (copy_strings urlObject)
  | None => None
  end.

(** ** More sample data *)

(** An element without attribute, displayed. *)
Definition blankElement : ElementObj :=
  {| localName := "div"; attributes := ∅; display := "block";
     visibility := "visible"; delegatesFocus := false |}.

(** The elements of the sample page [slottedSpan]: the body 1 as a
    hidden dialog, the host 2 as a disabled custom element whose shadow
    root 3 delegates focus, the slotted element 5 as a button with
    [disabled] and [tabindex="0"]. *)
Definition sampleElements (n : Node) : ElementObj :=
  match n with
  | 1 => {| localName := "dialog";
            attributes := {[ "hidden" := "" ]};
            display := "none"; visibility := "visible";
            delegatesFocus := false |}
  | 2 => {| localName := "x-host";
            attributes := {[ "disabled" := "" ]};
            display := "block"; visibility := "visible";
            delegatesFocus := false |}
  | 3 => {| localName := ""; attributes := ∅; display := "";
            visibility := ""; delegatesFocus := true |}
  | 5 => {| localName := "button";
            attributes := {[ "disabled" := ""; "tabindex" := "0" ]};
            display := "inline-block"; visibility := "visible";
            delegatesFocus := false |}
  | _ => blankElement
  end.

(** A button without attribute, wherever it is. *)
Definition enabledButton (n : Node) : ElementObj :=
  {| localName := "button"; attributes := ∅; display := "inline-block";
     visibility := "visible"; delegatesFocus := false |}.

(** The section of the sample page, with [disabled]: its shadow root
    delegates focus. *)
Definition disabledSection (n : Node) : ElementObj :=
  match n with
  | 2 => {| localName := "section";
            attributes := {[ "disabled" := "" ]};
            display := "block"; visibility := "visible";
            delegatesFocus := false |}
  | _ => sampleElements n
  end.

(** The enumerable properties of [new URL("https://a.b/path?x=1")]. *)
Definition sampleURL : list (string * JSValue) :=
  [("href", JSString "https://a.b/path?x=1");
   ("origin", JSString "https://a.b");
   ("protocol", JSString "https:");
   ("username", JSString "");
   ("password", JSString "");
   ("host", JSString "a.b");
   ("hostname", JSString "a.b");
   ("port", JSString "");
   ("pathname", JSString "/path");
   ("search", JSString "?x=1");
   ("searchParams", JSObject);
   ("hash", JSString "");
   ("toJSON", JSObject)].

(** * Properties *)

(** ** Walking up: composedAncestors and deepContains *)

Lemma composedAncestors_loop_done fuel d :
  composedAncestors_loop fuel d None = Some [].
Proof. destruct fuel; reflexivity. Qed.

Lemma last_default_irrelevant (x : Node) l a b :
  List.last (x :: l) a = List.last (x :: l) b.
Proof.
  revert x. induction l as [|y l IH]; intros x; [reflexivity|].
  change (List.last (y :: l) a = List.last (y :: l) b). apply IH.
Qed.

Lemma last_cons_start (x : Node) l a : List.last (x :: l) a = List.last l x.
Proof.
  destruct l as [|y l]; [reflexivity|].
  change (List.last (y :: l) a = List.last (y :: l) x). apply last_default_irrelevant.
Qed.

(** With more fuel than the depth of the node the loop ends; it yields
    strictly shallower nodes and stops at a node without composed
    parent. *)
Lemma composedAncestors_loop_ends d depth (Hd : depth_ok d depth) :
  forall fuel c, depth c < fuel ->
    exists l, composedAncestors_loop fuel d (Some c) = Some l /\
              Forall (fun x => depth x < depth c) l /\
              composedParent d (List.last l c) = None.
Proof.
  induction fuel as [|fuel IH]; intros c Hlt; [lia|].
  simpl. destruct (composedParent d c) as [p|] eqn:Hp.
  - pose proof (Hd _ _ Hp) as Hlt'.
    destruct (IH p) as (l & Hl & Hall & Hlast); [lia|].
    exists (p :: l). rewrite Hl. split; [reflexivity|]. split.
    + constructor; [exact Hlt'|].
      eapply Forall_impl; [exact Hall|]. simpl. intros; lia.
    + rewrite last_cons_start. exact Hlast.
  - exists []. rewrite composedAncestors_loop_done. auto.
Qed.

(** Adding fuel does not change a finished run. *)
Lemma composedAncestors_loop_more_fuel d :
  forall fuel current l,
    composedAncestors_loop fuel d current = Some l ->
    forall fuel', fuel <= fuel' ->
      composedAncestors_loop fuel' d current = Some l.
Proof.
  induction fuel as [|fuel IH]; intros [c|] l H fuel' Hle;
    try (rewrite composedAncestors_loop_done in *; exact H).
  - discriminate.
  - destruct fuel' as [|fuel']; [lia|]. simpl in *.
    destruct (composedParent d c) as [p|].
    + destruct (composedAncestors_loop fuel d (Some p)) as [rest|] eqn:Hr;
        [|discriminate].
      rewrite (IH _ _ Hr fuel') by lia. exact H.
    + rewrite composedAncestors_loop_done in *. exact H.
Qed.




(** The sample documents are well-formed. *)

Lemma slottedPage_depth_ok light ty :
  depth_ok (slottedPage light ty) slottedPage_depth.
Proof.
  intros n p.
  node_by_node n
    ltac:(destruct light; cbv; intros H;
          first [discriminate | injection H as <-; lia]).
Qed.



(** The run from a node ends, without the node among its yields. *)
Lemma composedAncestors_ends_strict d depth node :
  depth_ok d depth ->
  forall fuel, depth node < fuel ->
    exists l, composedAncestors fuel d node = Some l /\
              ~ In node l /\
              composedParent d (List.last l node) = None.
Proof.
  intros Hd fuel Hf.
  destruct (@composedAncestors_loop_ends d depth Hd fuel node Hf)
    as (l & Hl & Hall & Hlast).
  exists l. split; [exact Hl|]. split; [|exact Hlast].
  intros Hin. rewrite Forall_forall in Hall.
  assert (depth node < depth node); [|lia].
  apply Hall. apply list_elem_of_In. exact Hin.
Qed.

(** C6. In a well-formed tree (every node has a depth and a composed
    parent is strictly shallower) [composedAncestors] ends for every
    node as soon as the fuel exceeds the depth of the node: the
    sequence it yields is finite, its last step reaches a node without
    composed parent, and the starting node is not in it. *)
Theorem composedAncestors_finite_without_start d depth node :
  depth_ok d depth ->
  forall fuel, depth node < fuel ->
    exists l, composedAncestors fuel d node = Some l /\
              ~ In node l /\
              composedParent d (List.last l node) = None.
Proof. intros Hd fuel Hf. exact (composedAncestors_ends_strict node Hd Hf). Qed.

Lemma composedAncestors_finite_without_start_witness :
  exists l, composedAncestors 6 slottedSpan 5 = Some l /\
            ~ In 5 l /\
            composedParent slottedSpan (List.last l 5) = None.
Proof.
  apply (@composedAncestors_finite_without_start
           slottedSpan slottedPage_depth 5).
  - apply slottedPage_depth_ok.
  - simpl. lia.
Defined.




(** ** Walking down: walkComposedTree *)

Section YieldAll.
Variable run : Node -> option (list Node).




Lemma yield_all_child_finished cs rest c :
  yield_all (map run cs) = Some rest -> In c cs ->
  exists l, run c = Some l.
Proof.
  revert rest. induction cs as [|c' cs IH]; simpl; intros rest H; [intros []|].
  destruct (run c') as [l|] eqn:Hc; [|discriminate].
  destruct (yield_all (map run cs)) as [rest'|]; [|discriminate].
  intros [<- | Hin]; [eauto | eapply IH; eauto].
Qed.

(** A node of the concatenation comes from the run of a child. *)
Lemma yield_all_In cs rest m :
  yield_all (map run cs) = Some rest ->
  (In m rest <-> exists c l, In c cs /\ run c = Some l /\ In m l).
Proof.
  revert rest. induction cs as [|c cs IH]; simpl; intros rest H.
  - injection H as <-. split; [intros [] | intros (c & l & [] & _)].
  - destruct (run c) as [l|] eqn:Hc; [|discriminate].
    destruct (yield_all (map run cs)) as [rest'|]; [|discriminate].
    injection H as <-. rewrite in_app_iff, (IH _ eq_refl). split.
    + intros [Hm | (c' & l' & Hin & Hrun & Hm)].
      * exists c, l. auto.
      * exists c', l'. auto.
    + intros (c' & l' & [<- | Hin] & Hrun & Hm).
      * left. congruence.
      * right. exists c', l'. auto.
Qed.
End YieldAll.

Lemma yield_all_same (run run' : Node -> option (list Node)) cs :
  (forall c, In c cs -> run c = run' c) ->
  yield_all (map run cs) = yield_all (map run' cs).
Proof.
  induction cs as [|c cs IH]; simpl; intros H; [reflexivity|].
  rewrite (H c), IH; auto.
Qed.

Section Walk.
Variable d : DOM.
Variable whatToShow : Z.
Variables filter skipNode : Node -> bool.

Let walk fuel node := walkComposedTree fuel d node whatToShow filter skipNode.
Let stop := stops d whatToShow skipNode.

Lemma walk_step fuel node :
  walk (S fuel) node =
    if stop node then Some []
    else match yield_all (map (walk fuel) (composedChildren d node)) with
         | Some rest => Some ((if filter node then [node] else []) ++ rest)
         | None => None
         end.
Proof. reflexivity. Qed.



(** What a finished walk yields: the nodes it visits that pass
    [filter]. *)
Lemma walk_yields_visited_and_kept :
  forall fuel node l, walk fuel node = Some l ->
    forall m, In m l <-> visits d stop node m /\ filter m = true.
Proof.
  induction fuel as [|fuel IH]; intros node l H m; [discriminate|].
  rewrite walk_step in H. destruct (stop node) eqn:Hstop.
  - injection H as <-. split; [intros [] |].
    intros [Hv _]. inversion Hv; congruence.
  - destruct (yield_all (map (walk fuel) (composedChildren d node)))
      as [rest|] eqn:Hrest; [|discriminate].
    injection H as <-. rewrite in_app_iff, (yield_all_In _ _ m Hrest). split.
    + intros [Hown | (c & lc & Hc & Hrun & Hm)].
      * destruct (filter node) eqn:Hf; [|destruct Hown].
        destruct Hown as [<- | []]. split; [constructor|]; assumption.
      * apply (IH _ _ Hrun) in Hm. destruct Hm as [Hv Hf].
        split; [|exact Hf]. eapply visits_below; eassumption.
    + intros [Hv Hf]. inversion Hv as [n Hs | n c m' Hs Hc Hv']; subst.
      * left. rewrite Hf. left. reflexivity.
      * right. destruct (@yield_all_child_finished (walk fuel) _ _ _ Hrest Hc)
          as [lc Hrun].
        exists c, lc. split; [exact Hc|]. split; [exact Hrun|].
        apply (IH _ _ Hrun). auto.
Qed.
End Walk.











(** On the sample page: rejecting the host 2 with [filter] drops the
    host only; skipping it with [skipNode] drops the slot 4 and the
    span 5 below it as well; from the body of the plain page, with
    [whatToShow] 1, the text 3 and the comment 4 are not yielded. *)
Example walkComposedTree_filter_skip_type :
  walkComposedTree 6 slottedSpan 0 0
    (fun n => negb (Nat.eqb n 2)) (fun _ => false) = Some [0; 1; 4; 5] /\
  walkComposedTree 6 slottedSpan 0 0
    (fun _ => true) (fun n => Nat.eqb n 2) = Some [0; 1] /\
  walkComposedTree 6 plainPage 1 1
    (fun _ => true) (fun _ => false) = Some [1; 2].
Proof. repeat split. Qed.


(** The node a walk starts from is yielded like any other: a walk
    started at the shadow root 3 itself begins with it, while the walk
    from the document goes from the host 2 to the slot 4. *)
Lemma walkComposedTree_from_shadow_root :
  walkComposedTree_default 6 slottedSpan 3 = Some [3; 4; 5] /\
  walkComposedTree_default 6 slottedSpan 0 = Some [0; 1; 2; 4; 5].
Proof. split; reflexivity. Qed.




(** ** getDeepActiveElement *)





(** When the shadow root of the active element has an active element
    of its own, without further shadow tree, that deeper element is
    returned. *)
Lemma getDeepActiveElement_deeper (d : DOM) fuel r a sr inner :
  activeElement (d r) = Some a -> shadowRoot (d a) = Some sr ->
  activeElement (d sr) = Some inner -> shadowRoot (d inner) = None ->
  getDeepActiveElement (S (S fuel)) d (Some r) = Some (Some inner).
Proof. intros Ha Hs Hi Hn. simpl. rewrite Ha, Hs, Hi, Hn. reflexivity. Qed.

(** C1, the run that departs from it. The document's active element is
    the host 2, which has the shadow root 3; that shadow root has no
    active element. [getDeepActiveElement()] returns [document.body]
    (node 1) instead of the active element found at the level of the
    document (node 2). With the button 4 focused inside the shadow
    root, the button is returned. *)
Theorem getDeepActiveElement_focused_host_returns_body :
  activeElement (focusPage None 0) = Some 2 /\
  shadowRoot (focusPage None 2) = Some 3 /\
  activeElement (focusPage None 3) = None /\
  getDeepActiveElement_default 2 (focusPage None) = Some (Some 1) /\
  body (focusPage None) = 1 /\
  getDeepActiveElement_default 2 (focusPage (Some 4)) = Some (Some 4).
Proof. repeat split. Qed.



(** ** redispatchEventFromEvent *)

(** The copy is cancelable only through a [cancelable] member of
    [options] or an own property of the event. *)
Lemma construct_spread_cancelable ev options :
  cancelable (construct (type ev) (spread ev options)) =
    match options !! "cancelable" with
    | Some v => ToBoolean v
    | None => init_flag (ownProps ev) "cancelable"
    end.
Proof.
  unfold construct, spread, init_flag. simpl.
  rewrite lookup_union.
  destruct (options !! "cancelable") as [v|];
    destruct (ownProps ev !! "cancelable"); reflexivity.
Qed.

(** Without such a member the dispatch cannot be cancelled: the result
    is [true] and [preventDefault] is not called on the original. *)
Lemma redispatchEventFromEvent_copy_not_cancelable d on element ev options :
  options !! "cancelable" = None ->
  ownProps ev !! "cancelable" = None ->
  fst (redispatchEventFromEvent d on element ev options) = true /\
  ~ In PreventDefault (snd (redispatchEventFromEvent d on element ev options)).
Proof.
  intros Ho He. unfold redispatchEventFromEvent, dispatchEvent.
  rewrite construct_spread_cancelable, Ho. unfold init_flag. rewrite He.
  simpl. split; [reflexivity|].
  rewrite app_nil_r. destruct (bubbles ev && _); simpl; intuition discriminate.
Qed.



(** ** isClickInsideRect *)


(** ** randomID *)

Lemma substring_string_of_list n l :
  String.substring 0 n (string_of_list_ascii l) =
    string_of_list_ascii (firstn n l).
Proof.
  revert l. induction n as [|n IH]; intros [|c l]; simpl; try reflexivity.
  rewrite IH. reflexivity.
Qed.

Lemma length_string_of_list l :
  String.length (string_of_list_ascii l) = List.length l.
Proof. induction l; simpl; congruence. Qed.

Lemma digit36_is_base36 k : is_base36 (digit36 k) = true.
Proof.
  unfold digit36. pose proof (Nat.mod_upper_bound k 36) as H.
  destruct (k mod 36) as [|m]; [reflexivity|].
  do 35 (destruct m as [|m]; [reflexivity|]). lia.
Qed.

(** With the default length 10 the identifier is made of the first
    eight digits of the fraction, at most. *)
Lemma randomID_10 fraction :
  randomID 10 fraction =
    string_of_list_ascii (firstn 8 (map digit36 fraction)).
Proof.
  destruct fraction as [|k fraction]; [reflexivity|].
  unfold randomID, toString36, js_substring.
  set (ds := map digit36 (k :: fraction)).
  change (String.length ("0." ++ string_of_list_ascii ds))
    with (S (S (String.length (string_of_list_ascii ds)))).
  rewrite length_string_of_list.
  assert (Hlen : 1 <= List.length ds) by (unfold ds; simpl; lia).
  set (n := List.length ds) in *.
  replace (Z.min (Z.max 2 0) (Z.of_nat (S (S n)))) with 2%Z by lia.
  replace (Z.min 2 (Z.min (Z.max 10 0) (Z.of_nat (S (S n))))) with 2%Z by lia.
  replace (Z.to_nat 2) with 2 by reflexivity.
  replace (Z.to_nat (Z.max 2 (Z.min (Z.max 10 0) (Z.of_nat (S (S n)))) - 2))
    with (Nat.min 8 n) by lia.
  change (String.substring 2 (Nat.min 8 n) ("0." ++ string_of_list_ascii ds))
    with (String.substring 0 (Nat.min 8 n) (string_of_list_ascii ds)).
  rewrite substring_string_of_list. f_equal.
  destruct (Nat.le_ge_cases 8 n) as [H|H].
  - rewrite Nat.min_l by exact H. reflexivity.
  - rewrite Nat.min_r by exact H. unfold n.
    rewrite !firstn_all2; [reflexivity | lia | lia].
Qed.

(** The part of C7 about [randomID(10)] holds: at most 10 characters
    (indeed at most 8), all of them base-36 digits. *)
Lemma randomID_10_short_base36 fraction :
  String.length (randomID 10 fraction) <= 10 /\
  Forall (fun c => is_base36 c = true)
         (list_ascii_of_string (randomID 10 fraction)).
Proof.
  rewrite randomID_10. split.
  - rewrite length_string_of_list, length_firstn. lia.
  - rewrite list_ascii_of_string_of_list_ascii.
    apply Forall_forall. intros c Hc. apply list_elem_of_In in Hc.
    assert (Hin : In c (map digit36 fraction)).
    { rewrite <- (firstn_skipn 8 (map digit36 fraction)).
      apply in_or_app. left. exact Hc. }
    apply in_map_iff in Hin.
    destruct Hin as (k & <- & _). apply digit36_is_base36.
Qed.

(** For a length that is 0 or negative the two indices of [substring]
    are swapped: the result is the start of the printed number. *)
Lemma randomID_nonpositive length fraction :
  (length <= 0)%Z ->
  randomID length fraction = String.substring 0 2 (toString36 fraction).
Proof.
  intros Hlen. unfold randomID, js_substring.
  set (s := toString36 fraction).
  assert (Hs : 1 <= String.length s)
    by (unfold s, toString36; destruct fraction; simpl; lia).
  replace (Z.max length 0) with 0%Z by lia.
  replace (Z.min 0 (Z.of_nat (String.length s))) with 0%Z by lia.
  replace (Z.min (Z.min (Z.max 2 0) (Z.of_nat (String.length s))) 0)
    with 0%Z by lia.
  replace (Z.max (Z.min (Z.max 2 0) (Z.of_nat (String.length s))) 0 - 0)%Z
    with (Z.of_nat (Nat.min 2 (String.length s))) by lia.
  rewrite Nat2Z.id. simpl (Z.to_nat 0).
  destruct s as [|a [|b s]]; simpl in *; try lia; reflexivity.
Qed.

(** C7, the run that departs from it: [randomID(0)] and
    [randomID(-1)] are not the empty string but ["0."], the first two
    characters of the printed number, the dot included (["0"] when the
    number drawn is 0); [randomID(1)] is ["."]. *)
Theorem randomID_zero_length_not_empty :
  randomID 0 [18; 3; 35] = "0." /\
  randomID (-1) [18; 3; 35] = "0." /\
  randomID 0 [] = "0" /\
  randomID 1 [18; 3; 35] = "." /\
  toString36 [18; 3; 35] = "0.i3z".
Proof. repeat split. Qed.

(** * Further properties *)

(** ** composedAncestors: the chain of composed parents *)

Lemma composedAncestors_loop_chain d :
  forall fuel n l,
    composedAncestors_loop fuel d (Some n) = Some l -> composed_chain d n l.
Proof.
  induction fuel as [|fuel IH]; intros n l H; [discriminate|].
  simpl in H. destruct (composedParent d n) as [p|] eqn:Hp.
  - destruct (composedAncestors_loop fuel d (Some p)) as [rest|] eqn:Hr;
      [|discriminate].
    injection H as <-. apply composed_chain_up; [exact Hp | apply IH, Hr].
  - rewrite composedAncestors_loop_done in H. injection H as <-.
    apply composed_chain_top, Hp.
Qed.

Lemma composedAncestors_loop_step fuel d c :
  composedAncestors_loop (S fuel) d (Some c) =
    match composedParent d c with
    | Some nx =>
      match composedAncestors_loop fuel d (Some nx) with
      | Some rest => Some (nx :: rest)
      | None => None
      end
    | None => Some []
    end.
Proof.
  simpl. destruct (composedParent d c); [reflexivity|].
  apply composedAncestors_loop_done.
Qed.

Lemma composed_chain_loop d n l :
  composed_chain d n l ->
  composedAncestors_loop (S (List.length l)) d (Some n) = Some l.
Proof.
  induction 1 as [n Hn | n p l Hp _ IH].
  - rewrite composedAncestors_loop_step, Hn. reflexivity.
  - simpl List.length. rewrite composedAncestors_loop_step, Hp, IH.
    reflexivity.
Qed.

(** A finished run took one turn per yielded node, and one more. *)
Lemma composedAncestors_loop_turns d :
  forall fuel n l,
    composedAncestors_loop fuel d (Some n) = Some l -> List.length l < fuel.
Proof.
  induction fuel as [|fuel IH]; intros n l H; [discriminate|].
  rewrite composedAncestors_loop_step in H.
  destruct (composedParent d n) as [p|].
  - destruct (composedAncestors_loop fuel d (Some p)) as [rest|] eqn:Hr;
      [|discriminate].
    injection H as <-. apply IH in Hr. simpl. lia.
  - injection H as <-. simpl. lia.
Qed.


Lemma composed_chain_suffix d n l1 p l2 :
  composed_chain d n (l1 ++ p :: l2) -> composed_chain d p l2.
Proof.
  revert n. induction l1 as [|x l1 IH]; intros n H; simpl in H.
  - inversion H; subst. assumption.
  - inversion H; subst. eapply IH. eassumption.
Qed.

(** The ancestors of an ancestor are the rest of the walk: if
    [composedAncestors(node)] yields [p], what it yields after [p] is
    what [composedAncestors(p)] yields. *)
Theorem composedAncestors_of_ancestor d fuel node l1 p l2 :
  composedAncestors fuel d node = Some (l1 ++ p :: l2) ->
  composedAncestors fuel d p = Some l2.
Proof.
  intros H. pose proof (composedAncestors_loop_turns _ _ _ H) as Hlen.
  apply composedAncestors_loop_chain in H.
  apply composed_chain_suffix in H. apply composed_chain_loop in H.
  unfold composedAncestors.
  eapply composedAncestors_loop_more_fuel; [exact H|].
  rewrite length_app in Hlen. simpl in Hlen. lia.
Qed.

Lemma composedAncestors_of_ancestor_witness :
  composedAncestors 6 slottedSpan 3 = Some [2; 1; 0].
Proof.
  apply (@composedAncestors_of_ancestor slottedSpan 6 5 [4] 3 [2; 1; 0]).
  reflexivity.
Defined.

(** In a well-formed tree the walk passes through no node twice, the
    start included. *)
Theorem composedAncestors_no_repeat d depth fuel node l :
  depth_ok d depth ->
  composedAncestors fuel d node = Some l ->
  NoDup (node :: l).
Proof.
  intros Hd H. apply composedAncestors_loop_chain in H.
  assert (Hbelow : forall n l, composed_chain d n l ->
                     Forall (fun x => depth x < depth n) l /\ NoDup l).
  { clear node l H. induction 1 as [n Hn | n p l Hp _ [IHall IHnd]].
    - split; constructor.
    - pose proof (Hd _ _ Hp) as Hlt. split.
      + constructor; [exact Hlt|].
        eapply Forall_impl; [exact IHall|]. simpl. intros; lia.
      + apply NoDup_cons. split; [|exact IHnd].
        intros Hin. rewrite Forall_forall in IHall.
        specialize (IHall _ Hin). lia. }
  destruct (Hbelow _ _ H) as [Hall Hnd].
  apply NoDup_cons. split; [|exact Hnd].
  intros Hin. rewrite Forall_forall in Hall. specialize (Hall _ Hin). lia.
Qed.

Lemma composedAncestors_no_repeat_witness : NoDup [5; 4; 3; 2; 1; 0].
Proof.
  apply (@composedAncestors_no_repeat
           slottedSpan slottedPage_depth 6 5 [4; 3; 2; 1; 0]).
  - apply slottedPage_depth_ok.
  - reflexivity.
Defined.

(** ** deepContains: an order on the nodes *)

Lemma deepContains_loop_step fuel d container c :
  deepContains_loop (S fuel) d container (Some c) =
    if same_node (deepParent d c) container then Some true
    else deepContains_loop fuel d container (deepParent d c).
Proof. reflexivity. Qed.

Lemma same_node_true parent container :
  same_node parent container = true <-> parent = Some container.
Proof.
  destruct parent as [p|]; simpl; [|split; discriminate].
  rewrite Nat.eqb_eq. split; congruence.
Qed.

(** A [true] comes from climbing to the container. *)
Lemma deepContains_true_climbs d container :
  forall fuel target,
    deepContains fuel d container target = Some true ->
    climbs d target container.
Proof.
  unfold deepContains.
  induction fuel as [|fuel IH]; intros target H; [discriminate|].
  rewrite deepContains_loop_step in H.
  destruct (same_node (deepParent d target) container) eqn:Hs.
  - apply same_node_true in Hs. apply climbs_parent, Hs.
  - destruct (deepParent d target) as [p|] eqn:Hp.
    + eapply climbs_further; [exact Hp | apply IH, H].
    + destruct fuel; discriminate.
Qed.

Lemma climbs_shallower d depth (Hd : deep_depth_ok d depth) n a :
  climbs d n a -> depth a < depth n.
Proof.
  induction 1 as [n p Hp | n p a Hp _ IH].
  - apply Hd, Hp.
  - specialize (Hd _ _ Hp). lia.
Qed.

Lemma climbs_deepContains d depth (Hd : deep_depth_ok d depth) container :
  forall fuel target,
    depth target < fuel -> climbs d target container ->
    deepContains fuel d container target = Some true.
Proof.
  unfold deepContains.
  induction fuel as [|fuel IH]; intros target Hlt Hc; [lia|].
  rewrite deepContains_loop_step.
  destruct (same_node (deepParent d target) container) eqn:Hs;
    [reflexivity|].
  inversion Hc as [n p Hp | n p a Hp Hc']; subst.
  - rewrite Hp in Hs. simpl in Hs. rewrite Nat.eqb_refl in Hs. discriminate.
  - rewrite Hp. apply IH; [|exact Hc']. specialize (Hd _ _ Hp). lia.
Qed.

Lemma deepContains_ends d depth (Hd : deep_depth_ok d depth) container :
  forall fuel target,
    depth target < fuel ->
    exists b, deepContains fuel d container target = Some b.
Proof.
  unfold deepContains.
  induction fuel as [|fuel IH]; intros target Hlt; [lia|].
  rewrite deepContains_loop_step.
  destruct (same_node (deepParent d target) container); [eauto|].
  destruct (deepParent d target) as [p|] eqn:Hp.
  - apply IH. specialize (Hd _ _ Hp). lia.
  - exists false. destruct fuel; reflexivity.
Qed.

Lemma climbs_trans d a b c : climbs d c b -> climbs d b a -> climbs d c a.
Proof.
  induction 1 as [n p Hp | n p x Hp _ IH]; intros Hba.
  - eapply climbs_further; eassumption.
  - eapply climbs_further; [exact Hp | apply IH, Hba].
Qed.

Lemma slottedPage_deep_depth_ok light ty :
  deep_depth_ok (slottedPage light ty) slottedPage_depth.
Proof.
  intros n p.
  node_by_node n
    ltac:(cbv; intros H; first [discriminate | injection H as <-; lia]).
Qed.

(** [deepContains] is transitive: when [A] deep-contains [B] and [B]
    deep-contains [C], [deepContains(A, C)] returns [true]. *)
Theorem deepContains_transitive d depth fuel1 fuel2 fuel A B C :
  deep_depth_ok d depth ->
  deepContains fuel1 d A B = Some true ->
  deepContains fuel2 d B C = Some true ->
  depth C < fuel ->
  deepContains fuel d A C = Some true.
Proof.
  intros Hd HAB HBC Hlt.
  apply deepContains_true_climbs in HAB, HBC.
  eapply climbs_deepContains; [exact Hd | exact Hlt |].
  eapply climbs_trans; eassumption.
Qed.

(** The slot 4 contains the slotted text 5 and the host 2 contains the
    slot, through the shadow root: the host contains the text. *)
Lemma deepContains_transitive_witness :
  deepContains 6 slottedText 2 5 = Some true.
Proof.
  apply (@deepContains_transitive
           slottedText slottedPage_depth 6 6 6 2 4 5).
  - apply slottedPage_deep_depth_ok.
  - reflexivity.
  - reflexivity.
  - simpl. lia.
Defined.

(** In a tree where climbing terminates, [deepContains] is a strict
    order: no node deep-contains itself, and when [A] deep-contains
    [B], [deepContains(B, A)] returns [false]. *)
Theorem deepContains_strict d depth fuel fuel' A B :
  deep_depth_ok d depth ->
  depth A < fuel ->
  deepContains fuel d A A = Some false /\
  (deepContains fuel' d A B = Some true ->
   deepContains fuel d B A = Some false).
Proof.
  intros Hd Hlt. split.
  - destruct (@deepContains_ends d depth Hd A fuel A Hlt) as [[|] Hb];
      [|exact Hb].
    apply deepContains_true_climbs in Hb.
    pose proof (climbs_shallower Hd Hb). lia.
  - intros HAB. apply deepContains_true_climbs in HAB.
    destruct (@deepContains_ends d depth Hd B fuel A Hlt) as [[|] Hb];
      [|exact Hb].
    apply deepContains_true_climbs in Hb.
    pose proof (climbs_shallower Hd Hb).
    pose proof (climbs_shallower Hd HAB). lia.
Qed.

Lemma deepContains_strict_witness :
  deepContains 3 slottedText 2 2 = Some false /\
  (deepContains 6 slottedText 2 5 = Some true ->
   deepContains 3 slottedText 5 2 = Some false).
Proof.
  apply (@deepContains_strict slottedText slottedPage_depth 3 6 2 5).
  - apply slottedPage_deep_depth_ok.
  - simpl. lia.
Defined.

(** In a tree where climbing terminates, [deepContains] returns, and
    returns [true] exactly when the container is reached from the
    target by one or more steps [assignedSlot || parentNode || host]. *)
Theorem deepContains_decides_climbs d depth fuel container target :
  deep_depth_ok d depth -> depth target < fuel ->
  exists b, deepContains fuel d container target = Some b /\
            (b = true <-> climbs d target container).
Proof.
  intros Hd Hlt.
  destruct (@deepContains_ends d depth Hd container fuel target Hlt)
    as [b Hb].
  exists b. split; [exact Hb|]. split.
  - intros ->. eapply deepContains_true_climbs, Hb.
  - intros Hc.
    rewrite (@climbs_deepContains d depth Hd container fuel target Hlt Hc)
      in Hb.
    congruence.
Qed.

Lemma deepContains_decides_climbs_witness :
  exists b, deepContains 6 slottedText 3 5 = Some b /\
            (b = true <-> climbs slottedText 5 3).
Proof.
  apply (@deepContains_decides_climbs slottedText slottedPage_depth 6 3 5).
  - apply slottedPage_deep_depth_ok.
  - simpl. lia.
Defined.

(** ** walkComposedTree: what [filter] and the stops do to the output *)

Lemma yield_all_filtered (keep : Node -> bool)
  (run : Node -> option (list Node)) cs :
  yield_all (map (fun c => option_map (List.filter keep) (run c)) cs) =
    option_map (List.filter keep) (yield_all (map run cs)).
Proof.
  induction cs as [|c cs IH]; simpl; [reflexivity|].
  rewrite IH. destruct (run c) as [l|]; simpl; [|reflexivity].
  destruct (yield_all (map run cs)) as [rest|]; simpl; [|reflexivity].
  rewrite List.filter_app. reflexivity.
Qed.

(** [filter] only selects: the walk with a filter yields the nodes of
    the walk without filter that the filter keeps, in the same order. *)
Theorem walkComposedTree_filters_unfiltered_walk
  d whatToShow filter skipNode fuel node :
  walkComposedTree fuel d node whatToShow filter skipNode =
    option_map (List.filter filter)
      (walkComposedTree fuel d node whatToShow (fun _ => true) skipNode).
Proof.
  revert node. induction fuel as [|fuel IH]; intros node; [reflexivity|].
  rewrite !walk_step.
  destruct (stops d whatToShow skipNode node); [reflexivity|].
  rewrite (yield_all_same _
             (fun c => option_map (List.filter filter)
                         (walkComposedTree fuel d c whatToShow
                            (fun _ => true) skipNode)))
    by (intros c _; apply IH).
  rewrite yield_all_filtered.
  destruct (yield_all _) as [rest|]; simpl; [|reflexivity].
  destruct (filter node); reflexivity.
Qed.

Lemma visits_not_stopped d stop n m : visits d stop n m -> stop m = false.
Proof. induction 1; assumption. Qed.

(** Every node the walk yields is kept by [filter], is not skipped by
    [skipNode] and, when a node type is asked for, has that type. *)
Theorem walkComposedTree_yields_only_wanted
  d whatToShow filter skipNode fuel node l m :
  walkComposedTree fuel d node whatToShow filter skipNode = Some l ->
  In m l ->
  filter m = true /\ skipNode m = false /\
  (whatToShow <> 0%Z -> nodeType (d m) = whatToShow).
Proof.
  intros H Hin.
  apply (walk_yields_visited_and_kept _ _ _ _ _ _ H) in Hin.
  destruct Hin as [Hv Hf]. apply visits_not_stopped in Hv.
  unfold stops in Hv. apply orb_false_iff in Hv. destruct Hv as [Ht Hs].
  split; [exact Hf|]. split; [exact Hs|]. intros Hw.
  apply Z.eqb_neq in Hw. rewrite Hw in Ht. simpl in Ht.
  apply negb_false_iff, Z.eqb_eq in Ht. exact Ht.
Qed.

Lemma walkComposedTree_yields_only_wanted_witness :
  (fun _ : Node => true) 2 = true /\ (fun _ : Node => false) 2 = false /\
  (1%Z <> 0%Z -> nodeType (plainPage 2) = 1%Z).
Proof.
  apply (@walkComposedTree_yields_only_wanted
           plainPage 1 (fun _ => true) (fun _ => false) 6 1 [1; 2] 2).
  - reflexivity.
  - simpl. auto.
Defined.

(** ** getDeepActiveElement: what it returns *)





(** ** getFirstAndLastFocusableChildren *)

Lemma focusable_fold walker :
  forall first lst,
    fold_left focusable_step walker (first, lst) =
      (match first with Some _ => first | None => head walker end,
       match last walker with Some x => Some x | None => lst end).
Proof.
  induction walker as [|x walker IH]; intros first lst.
  - destruct first; reflexivity.
  - simpl fold_left. unfold focusable_step at 2. simpl fst.
    rewrite IH. destruct walker as [|y walker].
    + destruct first; reflexivity.
    + change (last (x :: y :: walker)) with (last (y :: walker)).
      destruct (last (y :: walker)) eqn:Hlast.
      * destruct first; reflexivity.
      * apply last_None in Hlast. discriminate.
Qed.

(** The pair returned is the first and the last node of the sequence;
    both are [null] exactly when the sequence is empty, and a sequence
    of one node gives that node twice. *)
Theorem getFirstAndLastFocusableChildren_head_last walker :
  getFirstAndLastFocusableChildren walker = (head walker, last walker) /\
  (getFirstAndLastFocusableChildren walker = (None, None) <-> walker = []).
Proof.
  assert (H : getFirstAndLastFocusableChildren walker
              = (head walker, last walker)).
  { unfold getFirstAndLastFocusableChildren. rewrite focusable_fold.
    destruct (last walker); reflexivity. }
  split; [exact H|]. rewrite H. split.
  - destruct walker; [reflexivity | discriminate].
  - intros ->. reflexivity.
Qed.

(** Fed with a walk of the composed tree from a node that the walk
    neither stops at nor filters out, the first of the pair is that
    node; the last is the last node the walk yields. *)
Theorem getFirstAndLastFocusableChildren_of_walk
  d whatToShow filter skipNode fuel node l :
  walkComposedTree fuel d node whatToShow filter skipNode = Some l ->
  stops d whatToShow skipNode node = false ->
  filter node = true ->
  exists lst,
    last l = Some lst /\
    getFirstAndLastFocusableChildren l = (Some node, Some lst).
Proof.
  intros H Hstop Hkeep. destruct fuel as [|fuel]; [discriminate|].
  rewrite walk_step, Hstop, Hkeep in H.
  destruct (yield_all _) as [rest|]; [|discriminate].
  injection H as <-. change ([node] ++ rest) with (node :: rest).
  pose proof (focusable_fold (node :: rest) None None) as Hfold.
  fold (getFirstAndLastFocusableChildren (node :: rest)) in Hfold.
  rewrite Hfold. simpl head.
  destruct (last (node :: rest)) as [x|] eqn:Hlast.
  - exists x. split; reflexivity.
  - apply last_None in Hlast. discriminate.
Qed.

Lemma getFirstAndLastFocusableChildren_of_walk_witness :
  exists lst,
    last [1; 2] = Some lst /\
    getFirstAndLastFocusableChildren [1; 2] = (Some 1, Some lst).
Proof.
  apply (@getFirstAndLastFocusableChildren_of_walk
           plainPage 1 (fun _ => true) (fun _ => false) 6 1 [1; 2]);
    reflexivity.
Defined.

(** ** redispatchEvent and redispatchEventFromEvent *)

(** Only [bubbles], [cancelable] and [composed] of the init dictionary
    reach the copy. *)
Lemma construct_newCustomEvent name options :
  construct name (spread (newCustomEvent name) options) =
    construct name options.
Proof.
  unfold construct, spread, init_flag, newCustomEvent. simpl.
  rewrite !lookup_union, !lookup_singleton_ne by discriminate.
  f_equal; destruct (options !! _); reflexivity.
Qed.

(** Given the name of an event, [redispatchEvent] dispatches an event
    of that type whose flags are those of [options] alone, returns
    what the dispatch returns, and never calls [stopPropagation]. *)
Theorem redispatchEvent_of_name d on element name options :
  let copy := construct name options in
  type copy = name /\
  fst (redispatchEvent d on element (inl name) options)
    = dispatchEvent on element copy /\
  ~ In StopPropagation
       (snd (redispatchEvent d on element (inl name) options)).
Proof.
  simpl. unfold redispatchEventFromEvent.
  rewrite construct_newCustomEvent. simpl.
  split; [reflexivity|]. split; [reflexivity|].
  destruct (negb _); simpl; intuition discriminate.
Qed.


(** The copy does not inherit [cancelable]: unless [options] (or an
    own property of the event) sets it, the copy cannot be cancelled,
    so the result is [true] and [preventDefault] is not called on the
    original, even for a cancelable event and a listener that calls
    [preventDefault]. *)
Theorem redispatchEventFromEvent_cancelable_not_inherited
  d on element ev options :
  options !! "cancelable" = None ->
  ownProps ev !! "cancelable" = None ->
  fst (redispatchEventFromEvent d on element ev options) = true /\
  ~ In PreventDefault (snd (redispatchEventFromEvent d on element ev options)).
Proof. apply redispatchEventFromEvent_copy_not_cancelable. Qed.

Lemma redispatchEventFromEvent_cancelable_not_inherited_witness :
  fst (redispatchEventFromEvent slottedSpan cancelingListeners 2
         cancelableClose ∅) = true /\
  ~ In PreventDefault
       (snd (redispatchEventFromEvent slottedSpan cancelingListeners 2
               cancelableClose ∅)).
Proof.
  apply (@redispatchEventFromEvent_cancelable_not_inherited
           slottedSpan cancelingListeners 2 cancelableClose ∅).
  - reflexivity.
  - vm_compute. reflexivity.
Defined.

(** ** isElementInvisible *)




(** With the default exceptions, a [dialog] element and an element
    with a [popover] attribute are never reported invisible, whatever
    their style and attributes ([display: none], [hidden], ...). *)
Theorem isElementInvisible_default_exceptions d e element :
  localName (e element) = "dialog" \/
  is_Some (attributes (e element) !! "popover") ->
  isElementInvisible d e (Some element) default_exceptions = Normal false.
Proof.
  intros H. unfold isElementInvisible.
  destruct (instanceof_HTMLElement d element); simpl; [|reflexivity].
  unfold matches_list. simpl.
  destruct H as [-> | [v ->]]; simpl; [reflexivity|].
  rewrite orb_true_r. reflexivity.
Qed.

(** The dialog of the sample is hidden twice over, and not reported. *)
Lemma isElementInvisible_default_exceptions_witness :
  isElementInvisible slottedSpan sampleElements (Some 1) default_exceptions
    = Normal false.
Proof.
  apply (@isElementInvisible_default_exceptions slottedSpan sampleElements 1).
  left. reflexivity.
Defined.

(** With an empty array of exceptions the call throws for every
    HTMLElement (the selector passed to [matches] is the empty
    string); [null] and nodes that are not HTMLElements give [false]
    before the selector is looked at. *)
Theorem isElementInvisible_no_exceptions d e :
  isElementInvisible d e None [] = Normal false /\
  forall element,
    isElementInvisible d e (Some element) [] =
      if instanceof_HTMLElement d element then SyntaxError
      else Normal false.
Proof.
  split; [reflexivity|]. intros element. unfold isElementInvisible.
  destruct (instanceof_HTMLElement d element); reflexivity.
Qed.



(** ** isFocusable *)

(** An HTMLElement with a [tabindex] that does not start with [-] is
    reported focusable whatever else it is: a [disabled] button, a
    disabled custom element. *)
Theorem isFocusable_tabindex d e element v :
  instanceof_HTMLElement d element = true ->
  attributes (e element) !! "tabindex" = Some v ->
  String.prefix "-" v = false ->
  isFocusable d e element = true.
Proof.
  intros Hhtml Htab Hneg. unfold isFocusable. rewrite Hhtml. cbn [negb].
  replace (matches_list (e element) knownFocusableElements) with true;
    [reflexivity|].
  symmetry. unfold matches_list. apply existsb_exists.
  exists [Attr "tabindex"; Not (AttrStarts "tabindex" "-")]. split.
  - unfold knownFocusableElements. simpl. auto 20.
  - cbn [forallb matches_simple]. rewrite Htab, Hneg. reflexivity.
Qed.

Lemma isFocusable_tabindex_witness :
  isFocusable slottedSpan sampleElements 5 = true.
Proof.
  apply (@isFocusable_tabindex slottedSpan sampleElements 5 "0");
    vm_compute; reflexivity.
Defined.

(** A button, input, select or textarea without [disabled] attribute
    is reported focusable. *)
Theorem isFocusable_enabled_control d e element :
  instanceof_HTMLElement d element = true ->
  In (localName (e element)) ["button"; "input"; "select"; "textarea"] ->
  attributes (e element) !! "disabled" = None ->
  isFocusable d e element = true.
Proof.
  intros Hhtml Hname Hdis. unfold isFocusable. rewrite Hhtml. cbn [negb].
  replace (matches_list (e element) knownFocusableElements) with true;
    [reflexivity|].
  symmetry. unfold matches_list. apply existsb_exists.
  exists [TypeSel (localName (e element)); Not (Attr "disabled")]. split.
  - unfold knownFocusableElements.
    simpl in Hname. destruct Hname as [<-|[<-|[<-|[<-|[]]]]]; simpl; auto 20.
  - cbn [forallb matches_simple]. rewrite Hdis, String.eqb_refl. reflexivity.
Qed.

Lemma isFocusable_enabled_control_witness :
  isFocusable slottedSpan enabledButton 5 = true.
Proof.
  apply (@isFocusable_enabled_control slottedSpan enabledButton 5).
  - reflexivity.
  - simpl. auto.
  - reflexivity.
Defined.

(** A custom element (a hyphen in its name) that matches none of the
    known focusable selectors and has a [disabled] attribute or
    [aria-disabled="true"] is not focusable, even when its shadow root
    delegates focus. *)
Theorem isFocusable_disabled_custom_element d e element :
  matches_list (e element) knownFocusableElements = false ->
  includes_hyphen (localName (e element)) = true ->
  is_Some (attributes (e element) !! "disabled") \/
  attributes (e element) !! "aria-disabled" = Some "true" ->
  isFocusable d e element = false.
Proof.
  intros Hknown Hhyphen Hdis. unfold isFocusable.
  destruct (instanceof_HTMLElement d element); cbn [negb]; [|reflexivity].
  rewrite Hknown, Hhyphen. unfold matches_list. cbn.
  destruct Hdis as [[v ->] | ->]; cbn.
  - reflexivity.
  - rewrite orb_true_r. reflexivity.
Qed.

Lemma isFocusable_disabled_custom_element_witness :
  isFocusable slottedSpan sampleElements 2 = false.
Proof.
  apply (@isFocusable_disabled_custom_element slottedSpan sampleElements 2).
  - vm_compute. reflexivity.
  - reflexivity.
  - left. vm_compute. eauto.
Defined.

(** Otherwise, for an HTMLElement that matches none of the known
    selectors and has no hyphen in its name, only the shadow root
    counts, [disabled] or not: the element is focusable exactly when
    it has a shadow root that delegates focus. *)
Theorem isFocusable_delegatesFocus d e element :
  instanceof_HTMLElement d element = true ->
  matches_list (e element) knownFocusableElements = false ->
  includes_hyphen (localName (e element)) = false ->
  (isFocusable d e element = true <->
   exists sr, shadowRoot (d element) = Some sr /\
              delegatesFocus (e sr) = true).
Proof.
  intros Hhtml Hknown Hhyphen. unfold isFocusable.
  rewrite Hhtml, Hknown, Hhyphen. cbn [negb andb].
  destruct (shadowRoot (d element)) as [sr|].
  - split; [eauto | intros (sr' & [= <-] & H); exact H].
  - split; [discriminate | intros (sr' & [=] & _)].
Qed.

Lemma isFocusable_delegatesFocus_witness :
  isFocusable slottedSpan disabledSection 2 = true <->
  exists sr, shadowRoot (slottedSpan 2) = Some sr /\
             delegatesFocus (disabledSection sr) = true.
Proof.
  apply (@isFocusable_delegatesFocus slottedSpan disabledSection 2).
  - reflexivity.
  - vm_compute. reflexivity.
  - reflexivity.
Defined.

(** ** urlToPlainObject *)

Lemma copy_strings_from acc props k v :
  fold_left
    (fun (plainObject : gmap string JSValue) (kv : string * JSValue) =>
       if is_string (snd kv) then <[fst kv := snd kv]> plainObject
       else plainObject) props acc !! k = Some v ->
  acc !! k = Some v \/ (In (k, v) props /\ is_string v = true).
Proof.
  revert acc. induction props as [|[k0 v0] props IH]; intros acc H;
    simpl in H; [auto|].
  apply IH in H. destruct H as [H | [Hin Hs]]; [|simpl; tauto].
  destruct (is_string v0) eqn:Hv0; [|auto].
  destruct (decide (k0 = k)) as [->|Hne].
  - rewrite lookup_insert_eq in H. injection H as ->. simpl. auto.
  - rewrite lookup_insert_ne in H by exact Hne. auto.
Qed.

Lemma copy_strings_other acc props k :
  ~ In k (map fst props) ->
  fold_left
    (fun (plainObject : gmap string JSValue) (kv : string * JSValue) =>
       if is_string (snd kv) then <[fst kv := snd kv]> plainObject
       else plainObject) props acc !! k = acc !! k.
Proof.
  revert acc. induction props as [|[k0 v0] props IH]; intros acc Hk;
    simpl in *; [reflexivity|].
  rewrite IH by tauto.
  destruct (is_string v0); [|reflexivity].
  apply lookup_insert_ne. tauto.
Qed.

Lemma copy_strings_lookup props k v :
  NoDup (map fst props) ->
  (copy_strings props !! k = Some v <->
   In (k, v) props /\ is_string v = true).
Proof.
  intros Hnd. unfold copy_strings. split.
  - intros H. apply copy_strings_from in H.
    destruct H as [H|H]; [|exact H]. rewrite lookup_empty in H. discriminate.
  - intros [Hin Hs]. generalize (∅ : gmap string JSValue).
    induction props as [|[k0 v0] props IH]; intros acc; [destruct Hin|].
    simpl in Hnd. apply NoDup_cons in Hnd. destruct Hnd as [Hk0 Hnd].
    simpl. destruct Hin as [[= -> ->] | Hin].
    + rewrite Hs, copy_strings_other.
      * apply lookup_insert_eq.
      * intros Hin. apply Hk0. apply list_elem_of_In. exact Hin.
    + apply IH; assumption.
Qed.

(** Given a URL object, the result has exactly the properties of the
    object whose value is a string, with the same value; the others
    ([searchParams], the methods) are left out. *)
Theorem urlToPlainObject_string_properties newURL urlObject :
  NoDup (map fst urlObject) ->
  exists plainObject,
    urlToPlainObject newURL (inr urlObject) = Some plainObject /\
    forall key v,
      plainObject !! key = Some v <->
      In (key, v) urlObject /\ is_string v = true.
Proof.
  intros Hnd. exists (copy_strings urlObject). split; [reflexivity|].
  intros key v. apply copy_strings_lookup, Hnd.
Qed.

Lemma sampleURL_NoDup : NoDup (map fst sampleURL).
Proof.
  apply NoDup_ListNoDup. simpl.
  repeat (constructor; [simpl; intuition discriminate|]). constructor.
Qed.

Lemma urlToPlainObject_string_properties_witness :
  exists plainObject,
    urlToPlainObject (fun _ => None) (inr sampleURL) = Some plainObject /\
    forall key v,
      plainObject !! key = Some v <->
      In (key, v) sampleURL /\ is_string v = true.
Proof.
  apply (@urlToPlainObject_string_properties (fun _ => None) sampleURL).
  apply sampleURL_NoDup.
Defined.

(** Whatever the input, a string or an object, every value of the
    result is a string, and converting the result again gives the
    result back. *)
Theorem urlToPlainObject_idempotent newURL url plainObject :
  urlToPlainObject newURL url = Some plainObject ->
  (forall key v, plainObject !! key = Some v -> is_string v = true) /\
  urlToPlainObject newURL (inr (map_to_list plainObject)) = Some plainObject.
Proof.
  unfold urlToPlainObject. intros H.
  destruct (match url with inl s => newURL s | inr o => Some o end)
    as [urlObject|]; [|discriminate].
  injection H as <-.
  assert (Hstr : forall key v,
            copy_strings urlObject !! key = Some v -> is_string v = true).
  { intros key v H. apply copy_strings_from in H.
    destruct H as [H|[_ H]]; [|exact H].
    rewrite lookup_empty in H. discriminate. }
  split; [exact Hstr|]. f_equal. apply map_eq. intros key.
  apply option_eq. intros v.
  rewrite copy_strings_lookup by apply NoDup_fst_map_to_list.
  rewrite <- list_elem_of_In, elem_of_map_to_list. split; [tauto|].
  intros H. split; [exact H | eapply Hstr, H].
Qed.

Lemma urlToPlainObject_idempotent_witness :
  (forall key v, copy_strings sampleURL !! key = Some v -> is_string v = true) /\
  urlToPlainObject (fun _ => None) (inr (map_to_list (copy_strings sampleURL)))
    = Some (copy_strings sampleURL).
Proof.
  apply (@urlToPlainObject_idempotent
           (fun _ => None) (inr sampleURL) (copy_strings sampleURL)).
  reflexivity.
Defined.

(** ** isClickInsideRect: degenerate rectangles and corners *)






(** ** randomID: the length asked for *)




(** For a length that is 0 or negative the identifier is not empty: it
    is ["0."], the start of the printed number with its dot (["0"] when
    the number drawn is 0). *)
Theorem randomID_nonpositive_length length fraction :
  (length <= 0)%Z ->
  randomID length fraction =
    match fraction with [] => "0" | _ => "0." end.
Proof.
  intros Hlen. rewrite randomID_nonpositive by exact Hlen.
  destruct fraction; reflexivity.
Qed.

Lemma randomID_nonpositive_length_witness :
  randomID (-5) [18; 3; 35] = "0.".
Proof.
  apply (@randomID_nonpositive_length (-5) [18; 3; 35]). lia.
Defined.
